(** * EventToken.h: the EventRegistrationToken compatibility header

    The repository ships one vendored header,
    [vendor_patch/webview/libs/mswebview2/include/EventToken.h]:

<<
    #ifndef _EVENTTOKEN_H_
    #define _EVENTTOKEN_H_

    #include <stdint.h>

    typedef struct EventRegistrationToken {
        int64_t value;
    } EventRegistrationToken;

    #endif // _EVENTTOKEN_H_
>>

    The development has these parts.

    - [Int64] and [EventRegistrationToken]: the values of the declared type,
      a record with the one field [value].
    - [Bytes]: little-endian encoding, the byte order of every target the
      header is built for.
    - [TranslationUnit]: the header as a transformer of the compile-time
      environment of a translation unit (macros, ordinary identifiers, struct
      tags), over the platform's [<stdint.h>].
    - [Layout]: the rule that gives a struct its size and its members their
      offsets, on a target and under a packing.
    - [Memory]: a byte-addressed store in which tokens are written, read,
      copied and discarded. *)

From Stdlib Require Import ZArith Lia List Bool.
From Stdlib Require Import Strings.Byte.
From stdpp Require Import base decidable option gmap strings list.

Local Open Scope Z_scope.

(** ** Signed 64-bit integers: [int64_t] of <stdint.h> *)

Module Int64.

Definition width : Z := 64.
Definition modulus : Z := 2 ^ width.
Definition min_signed : Z := - 2 ^ (width - 1).
Definition max_signed : Z := 2 ^ (width - 1) - 1.

(** The storage width is the whole invariant of the type. *)
Definition fits (z : Z) : bool := (min_signed <=? z) && (z <=? max_signed).

Record int64_t : Type := mk {
  signed : Z;
  in_range : Is_true (fits signed)
}.

(** Conversion of a mathematical integer, wrapping around modulo [2^64] the
    way a two's complement machine does. *)
Definition wrap (z : Z) : Z := (z - min_signed) mod modulus + min_signed.

Lemma wrap_fits (z : Z) : Is_true (fits (wrap z)).
Proof.
  unfold fits, wrap. apply Is_true_true, andb_true_iff.
  assert (0 <= (z - min_signed) mod modulus < modulus)
    by (apply Z.mod_pos_bound; reflexivity).
  unfold min_signed, max_signed, modulus, width in *.
  split; [apply Z.leb_le | apply Z.leb_le]; lia.
Qed.

Definition of_Z (z : Z) : int64_t := mk (wrap z) (wrap_fits z).

(** The unsigned reading of the same 64 bits. *)
Definition unsigned (n : int64_t) : Z := signed n mod modulus.

Lemma fits_iff (z : Z) : Is_true (fits z) <-> min_signed <= z <= max_signed.
Proof.
  unfold fits. rewrite andb_True, !Is_true_true, !Z.leb_le. tauto.
Qed.

Lemma signed_range (n : int64_t) : min_signed <= signed n <= max_signed.
Proof. apply fits_iff, in_range. Qed.

(** Two integers with the same numeric value are the same integer: the range
    proof carries no information. *)
Lemma signed_inj (a b : int64_t) : signed a = signed b -> a = b.
Proof.
  destruct a as [x Hx], b as [y Hy]; simpl; intros ->.
  f_equal. apply proof_irrel.
Qed.

Lemma wrap_small (z : Z) : min_signed <= z <= max_signed -> wrap z = z.
Proof.
  intros Hz. unfold wrap. rewrite Z.mod_small; [lia |].
  unfold min_signed, max_signed, modulus, width in *. lia.
Qed.

Lemma wrap_mod (z : Z) : wrap (z mod modulus) = wrap z.
Proof. unfold wrap. now rewrite Zminus_mod_idemp_l. Qed.

Lemma wrap_unsigned (z : Z) : wrap z mod modulus = z mod modulus.
Proof.
  unfold wrap. rewrite Zplus_mod_idemp_l. f_equal. lia.
Qed.

Lemma signed_of_Z (z : Z) : min_signed <= z <= max_signed -> signed (of_Z z) = z.
Proof. apply wrap_small. Qed.

Lemma of_Z_signed (n : int64_t) : of_Z (signed n) = n.
Proof. apply signed_inj; simpl. apply wrap_small, signed_range. Qed.

Lemma unsigned_range (n : int64_t) : 0 <= unsigned n < modulus.
Proof. apply Z.mod_pos_bound. reflexivity. Qed.

Lemma of_Z_unsigned (n : int64_t) : of_Z (unsigned n) = n.
Proof.
  apply signed_inj; simpl. unfold unsigned.
  rewrite wrap_mod. apply wrap_small, signed_range.
Qed.

Lemma unsigned_of_Z (u : Z) : 0 <= u < modulus -> unsigned (of_Z u) = u.
Proof.
  intros Hu. unfold unsigned; simpl. rewrite wrap_unsigned.
  now apply Z.mod_small.
Qed.

End Int64.

Export Int64(int64_t).

(** ** The declared structure

    [typedef struct EventRegistrationToken { int64_t value; }
     EventRegistrationToken;] *)

Record EventRegistrationToken : Type := {
  value : int64_t
}.

(** ** Object representation

    Every target the header is written for (MinGW on x86, x86-64 and ARM64
    Windows) has 8-bit bytes and stores integers least significant byte
    first. *)

Module Bytes.

Definition byte_of_Z (z : Z) : byte :=
  default x00 (Byte.of_N (Z.to_N (z mod 256))).

Definition Z_of_byte (b : byte) : Z := Z.of_N (Byte.to_N b).

(** [le_encode n z]: the [n] low-order bytes of [z], least significant
    first. *)
Fixpoint le_encode (n : nat) (z : Z) : list byte :=
  match n with
  | O => []
  | S n' => byte_of_Z z :: le_encode n' (z / 256)
  end.

Fixpoint le_decode (bs : list byte) : Z :=
  match bs with
  | [] => 0
  | b :: bs' => Z_of_byte b + 256 * le_decode bs'
  end.

Lemma Z_of_byte_range (b : byte) : 0 <= Z_of_byte b < 256.
Proof.
  unfold Z_of_byte. pose proof (Byte.to_N_bounded b). lia.
Qed.

Lemma Z_of_byte_of_Z (z : Z) : Z_of_byte (byte_of_Z z) = z mod 256.
Proof.
  unfold Z_of_byte, byte_of_Z.
  assert (Hz : 0 <= z mod 256 < 256) by (apply Z.mod_pos_bound; lia).
  destruct (Byte.of_N (Z.to_N (z mod 256))) as [b|] eqn:Hb; simpl.
  - apply Byte.to_of_N in Hb. rewrite Hb. lia.
  - apply Byte.of_N_None_iff in Hb. lia.
Qed.

Lemma byte_of_Z_of_byte (b : byte) : byte_of_Z (Z_of_byte b) = b.
Proof.
  unfold byte_of_Z. rewrite Z.mod_small by apply Z_of_byte_range.
  unfold Z_of_byte. rewrite N2Z.id, Byte.of_to_N. reflexivity.
Qed.

Lemma length_le_encode (n : nat) (z : Z) : length (le_encode n z) = n.
Proof. revert z; induction n as [|n IH]; intros z; simpl; auto. Qed.

Lemma le_decode_range (bs : list byte) :
  0 <= le_decode bs < 256 ^ Z.of_nat (length bs).
Proof.
  induction bs as [|b bs IH]; [simpl; lia |].
  cbn [le_decode length]. rewrite Nat2Z.inj_succ, Z.pow_succ_r by lia.
  pose proof (Z_of_byte_range b). lia.
Qed.

Lemma le_decode_encode (n : nat) (z : Z) :
  le_decode (le_encode n z) = z mod 256 ^ Z.of_nat n.
Proof.
  revert z; induction n as [|n IH]; intros z.
  - simpl. now rewrite Z.mod_1_r.
  - cbn [le_encode le_decode]. rewrite IH, Z_of_byte_of_Z.
    rewrite Nat2Z.inj_succ, Z.pow_succ_r by lia.
    rewrite Z.rem_mul_r by lia. reflexivity.
Qed.

Lemma le_encode_decode (bs : list byte) :
  le_encode (length bs) (le_decode bs) = bs.
Proof.
  induction bs as [|b bs IH]; [reflexivity |].
  cbn [length le_encode le_decode].
  pose proof (Z_of_byte_range b) as Hb.
  set (d := le_decode bs) in *.
  assert (Hlow : (Z_of_byte b + 256 * d) mod 256 = Z_of_byte b)
    by (symmetry; apply (Z.mod_unique _ _ d); lia).
  assert (Hhigh : (Z_of_byte b + 256 * d) / 256 = d)
    by (symmetry; apply (Z.div_unique _ _ _ (Z_of_byte b)); lia).
  rewrite Hhigh, IH. f_equal.
  rewrite <- (byte_of_Z_of_byte b) at 2.
  unfold byte_of_Z. rewrite Hlow. now rewrite Z.mod_small.
Qed.

End Bytes.

(** ** The header as a transformer of a translation unit

    What a translation unit knows at a point of its text: the macros defined
    so far, the ordinary identifiers (typedef names, functions and objects
    share one name space) and the struct tags that have a body. *)

Module TranslationUnit.

Inductive signedness : Type := Signed | Unsigned.

Inductive ctype : Type :=
| Tint (bits : Z) (sg : signedness)   (* an integer type of an exact width *)
| Tnamed (name : string)              (* a typedef name, as written *)
| Tstruct (tag : string).             (* struct tag *)

#[global] Instance signedness_eq_dec : EqDecision signedness.
Proof. solve_decision. Defined.

#[global] Instance ctype_eq_dec : EqDecision ctype.
Proof. solve_decision. Defined.

Inductive entity : Type :=
| Typedef (ty : ctype)
| Function
| Object (ty : ctype).

(** A struct body: member names with their (resolved) types, in order. *)
Definition members : Type := list (string * ctype).

Record tu : Type := mk_tu {
  macros : gset string;
  ordinary : gmap string entity;
  tags : gmap string members
}.

Definition empty_tu : tu := mk_tu ∅ ∅ ∅.

(** Diagnostics that stop a compilation. *)
Inductive error : Type :=
| Redefinition (name : string)
| ConflictingTypes (name : string)
| UnknownTypeName (name : string)
| IncompleteType (tag : string).

Inductive result (A : Type) : Type :=
| Ok (a : A)
| Err (e : error).
Arguments Ok {A} a.
Arguments Err {A} e.

#[global] Instance result_bind : MBind result := fun A B f r =>
  match r with
  | Ok a => f a
  | Err e => Err e
  end.

(** [#define m]. Only the names of the macros are kept, for [#ifndef]:
    macro replacement is not modelled, so what is proved of the header's
    declarations is proved for units in which its text reads as written
    ([reads_as_written] below). *)
Definition define (m : string) (t : tu) : tu :=
  mk_tu ({[ m ]} ∪ macros t) (ordinary t) (tags t).

(** [#ifndef m ... #endif]: the enclosed text is skipped when [m] is
    defined. *)
Definition ifndef (m : string) (body : tu -> result tu) (t : tu) : result tu :=
  if decide (m ∈ macros t) then Ok t else body t.

(** [typedef ty name;]. Declaring a typedef name again for the same type is
    accepted; any other clash of ordinary identifiers is diagnosed. *)
Definition typedef (name : string) (ty : ctype) (t : tu) : result tu :=
  match ordinary t !! name with
  | None => Ok (mk_tu (macros t) (<[name := Typedef ty]> (ordinary t)) (tags t))
  | Some (Typedef ty') =>
      if decide (ty' = ty) then Ok t else Err (ConflictingTypes name)
  | Some _ => Err (Redefinition name)
  end.

Fixpoint typedefs (ds : list (string * ctype)) (t : tu) : result tu :=
  match ds with
  | [] => Ok t
  | (name, ty) :: ds' => t' ← typedef name ty t; typedefs ds' t'
  end.

(** The type a member declaration denotes at this point of the unit. *)
Definition resolve (t : tu) (ty : ctype) : result ctype :=
  match ty with
  | Tint bits sg => Ok (Tint bits sg)
  | Tnamed name =>
      match ordinary t !! name with
      | Some (Typedef ty') => Ok ty'
      | _ => Err (UnknownTypeName name)
      end
  | Tstruct tag =>
      match tags t !! tag with
      | Some _ => Ok (Tstruct tag)
      | None => Err (IncompleteType tag)
      end
  end.

Fixpoint resolve_members (t : tu) (ms : members) : result members :=
  match ms with
  | [] => Ok []
  | (name, ty) :: ms' =>
      ty' ← resolve t ty;
      ms'' ← resolve_members t ms';
      Ok ((name, ty') :: ms'')
  end.

(** [struct tag { ms };]: a tag gets a body once. The tags of the model
    are those of structs, and member names are not compared with each
    other: the header declares one struct of one member, no union and no
    enum. *)
Definition define_struct (tag : string) (ms : members) (t : tu) : result tu :=
  match tags t !! tag with
  | Some _ => Err (Redefinition tag)
  | None =>
      ms' ← resolve_members t ms;
      Ok (mk_tu (macros t) (ordinary t) (<[tag := ms']> (tags t)))
  end.

(** [typedef struct tag { ms } alias;]. A clash of [alias] with an earlier
    declaration is found after the struct is declared, as a C compiler does;
    a C++ compiler may refuse the same text at the struct head. *)
Definition typedef_struct (tag : string) (ms : members) (alias : string)
    (t : tu) : result tu :=
  t' ← define_struct tag ms t;
  typedef alias (Tstruct tag) t'.

(** *** <stdint.h>

    The platform's header is not part of the repository. Of its contents the
    exact-width integer types are modelled, as the C standard fixes them
    (7.20.1.1: [intN_t] is a signed integer type of width exactly [N], without
    padding bits, in two's complement); a platform's header declares more
    names and defines macros. What is proved of the header on every platform
    takes [<stdint.h>] as a parameter instead. *)
Definition stdint_exact_width : list (string * ctype) :=
  [ ("int8_t", Tint 8 Signed);     ("int16_t", Tint 16 Signed);
    ("int32_t", Tint 32 Signed);   ("int64_t", Tint 64 Signed);
    ("uint8_t", Tint 8 Unsigned);  ("uint16_t", Tint 16 Unsigned);
    ("uint32_t", Tint 32 Unsigned); ("uint64_t", Tint 64 Unsigned) ]%string.

Definition stdint_h : tu -> result tu := typedefs stdint_exact_width.

(** *** EventToken.h

    The header is embedded over the platform's [<stdint.h>]: [stdint] is
    what [#include <stdint.h>] does to the unit on the platform at hand. *)

Definition EventRegistrationToken_members : members :=
  [ ("value", Tnamed "int64_t") ]%string.

(** Lines 7 to 11: what the guard encloses besides its own [#define]. *)
Definition EventToken_h_declarations_on (stdint : tu -> result tu)
    (t : tu) : result tu :=
  t ← stdint t;                                    (* #include <stdint.h> *)
  typedef_struct "EventRegistrationToken"          (* typedef struct ... { *)
    EventRegistrationToken_members                 (*   int64_t value;     *)
    "EventRegistrationToken" t.                    (* } ...;               *)

(** The whole header, lines 4 to 13. *)
Definition EventToken_h_on (stdint : tu -> result tu) : tu -> result tu :=
  ifndef "_EVENTTOKEN_H_" (fun t =>                (* #ifndef _EVENTTOKEN_H_ *)
    EventToken_h_declarations_on stdint
      (define "_EVENTTOKEN_H_" t)).                (* #define _EVENTTOKEN_H_ *)

(** The header with the modelled [<stdint.h>]. *)
Definition EventToken_h_declarations : tu -> result tu :=
  EventToken_h_declarations_on stdint_h.

Definition EventToken_h : tu -> result tu := EventToken_h_on stdint_h.

(** The words of lines 9 to 11 that macro replacement could rewrite. *)
Definition EventToken_h_tokens : list string :=
  [ "typedef"; "struct"; "EventRegistrationToken"; "int64_t"; "value" ]%string.

(** None of them is the name of a macro in the unit: the declaration reads
    as it is written. *)
Definition reads_as_written (t : tu) : Prop :=
  Forall (fun x => x ∉ macros t) EventToken_h_tokens.

#[global] Instance reads_as_written_dec (t : tu) : Decision (reads_as_written t).
Proof. unfold reads_as_written. apply _. Defined.

(** The same text without its guard, for comparison. *)
Definition EventToken_h_unguarded (t : tu) : result tu :=
  EventToken_h_declarations t.

(** [n] inclusions of the header, one after the other. *)
Fixpoint include_times (n : nat) (t : tu) : result tu :=
  match n with
  | O => Ok t
  | S n' => t' ← EventToken_h t; include_times n' t'
  end.

(** The body the struct gets once its member type is resolved. *)
Definition EventRegistrationToken_body : members :=
  [ ("value", Tint 64 Signed) ]%string.

(** *** What each step does to the unit *)

Lemma typedef_Ok (name : string) (ty : ctype) (t t' : tu) :
  typedef name ty t = Ok t' ->
  macros t' = macros t /\ tags t' = tags t /\
  ordinary t' = <[name := Typedef ty]> (ordinary t) /\
  (ordinary t !! name = None \/ ordinary t !! name = Some (Typedef ty)).
Proof.
  unfold typedef. destruct (ordinary t !! name) as [[ty'| |ty']|] eqn:Hname; try done.
  - case_decide as Hty; [|done]. intros [= <-]. subst ty'.
    rewrite insert_id by done. auto.
  - intros [= <-]. simpl. auto.
Qed.

Lemma typedef_present (name : string) (ty : ctype) (t : tu) :
  ordinary t !! name = Some (Typedef ty) -> typedef name ty t = Ok t.
Proof. unfold typedef. intros ->. now rewrite decide_True. Qed.

(** A successful [typedef] keeps every identifier already declared. *)
Lemma typedef_mono (name : string) (ty : ctype) (t t' : tu) (x : string) (e : entity) :
  typedef name ty t = Ok t' ->
  ordinary t !! x = Some e -> ordinary t' !! x = Some e.
Proof.
  intros (_ & _ & -> & Hold)%typedef_Ok Hx.
  destruct (decide (name = x)) as [<-|Hne].
  - rewrite lookup_insert_eq. destruct Hold; congruence.
  - now rewrite lookup_insert_ne.
Qed.

Lemma typedefs_Ok (ds : list (string * ctype)) (t t' : tu) :
  typedefs ds t = Ok t' ->
  macros t' = macros t /\ tags t' = tags t /\
  (forall x e, ordinary t !! x = Some e -> ordinary t' !! x = Some e) /\
  (forall x, ordinary t !! x = None ->
     ordinary t' !! x = None \/
     exists ty, (x, ty) ∈ ds /\ ordinary t' !! x = Some (Typedef ty)) /\
  (forall x ty, (x, ty) ∈ ds -> ordinary t' !! x = Some (Typedef ty)).
Proof.
  revert t; induction ds as [|[name ty] ds IH]; intros t; cbn [typedefs].
  - intros [= <-]. repeat split; auto. intros x ty []%elem_of_nil.
  - destruct (typedef name ty t) as [t1|] eqn:Hstep;
      cbn [mbind result_bind]; [|done].
    intros Hrest.
    destruct (IH _ Hrest) as (Hm & Htags & Hmono & Hnew & Hall).
    pose proof (typedef_Ok _ _ _ _ Hstep) as (Hm1 & Htags1 & Hord1 & Hold1).
    repeat split.
    + congruence.
    + congruence.
    + intros x e Hx. eauto using typedef_mono.
    + intros x Hx. destruct (decide (name = x)) as [<-|Hne].
      * right. exists ty. split; [left |].
        apply Hmono. rewrite Hord1. apply lookup_insert_eq.
      * destruct (Hnew x) as [Hnone|(ty' & Hin & Hsome)].
        -- rewrite Hord1. now rewrite lookup_insert_ne.
        -- now left.
        -- right. exists ty'. split; [now right | done].
    + intros x ty' [[= -> ->]|Hin]%elem_of_cons; [|eauto].
      apply Hmono. rewrite Hord1. apply lookup_insert_eq.
Qed.

Lemma typedefs_present (ds : list (string * ctype)) (t : tu) :
  (forall x ty, (x, ty) ∈ ds -> ordinary t !! x = Some (Typedef ty)) ->
  typedefs ds t = Ok t.
Proof.
  induction ds as [|[name ty] ds IH]; intros Hall; cbn [typedefs]; [done |].
  rewrite typedef_present by (apply Hall; left).
  apply IH. intros x ty' Hin. apply Hall. now right.
Qed.

Lemma int64_t_in_stdint : ("int64_t"%string, Tint 64 Signed) ∈ stdint_exact_width.
Proof. unfold stdint_exact_width. do 3 right. left. Qed.

(** After [#include <stdint.h>], [int64_t] names the signed 64-bit integer
    type. *)
Lemma stdint_h_int64_t (t t' : tu) :
  stdint_h t = Ok t' ->
  ordinary t' !! "int64_t"%string = Some (Typedef (Tint 64 Signed)).
Proof.
  intros (_ & _ & _ & _ & Hall)%typedefs_Ok. apply Hall, int64_t_in_stdint.
Qed.

Lemma EventToken_h_declarations_Ok (t t' : tu) :
  EventToken_h_declarations t = Ok t' ->
  exists t1,
    stdint_h t = Ok t1 /\
    tags t !! "EventRegistrationToken"%string = None /\
    (ordinary t1 !! "EventRegistrationToken"%string = None \/
     ordinary t1 !! "EventRegistrationToken"%string =
       Some (Typedef (Tstruct "EventRegistrationToken"))) /\
    t' = mk_tu (macros t)
           (<["EventRegistrationToken"%string :=
                Typedef (Tstruct "EventRegistrationToken")]> (ordinary t1))
           (<["EventRegistrationToken"%string :=
                EventRegistrationToken_body]> (tags t)).
Proof.
  unfold EventToken_h_declarations, EventToken_h_declarations_on.
  destruct (stdint_h t) as [t1|] eqn:Hstd; cbn [mbind result_bind]; [|done].
  pose proof (stdint_h_int64_t _ _ Hstd) as Hint.
  apply typedefs_Ok in Hstd as Hsame. destruct Hsame as (Hm & Htags & _).
  unfold typedef_struct, define_struct. rewrite Htags.
  destruct (tags t !! "EventRegistrationToken"%string) eqn:Htag;
    cbn [mbind result_bind]; [done |].
  unfold EventRegistrationToken_members. cbn [resolve_members resolve].
  rewrite Hint. cbn [mbind result_bind].
  intros (Hm' & Htags' & Hord' & Hold)%typedef_Ok.
  cbn in Hm', Htags', Hord', Hold.
  exists t1. repeat split; [exact Hold |]. destruct t' as [m' o' g']; cbn in *.
  now rewrite Hm', Htags', Hord', Hm.
Qed.

(** What a successful include has done, over any [<stdint.h>]: [t1] is the
    unit as line 7 leaves it, [ty] the type that [int64_t] names there. *)
Lemma EventToken_h_on_Ok (stdint : tu -> result tu) (t t' : tu) :
  "_EVENTTOKEN_H_"%string ∉ macros t ->
  EventToken_h_on stdint t = Ok t' ->
  exists t1 ty,
    stdint (define "_EVENTTOKEN_H_" t) = Ok t1 /\
    ordinary t1 !! "int64_t"%string = Some (Typedef ty) /\
    tags t1 !! "EventRegistrationToken"%string = None /\
    (ordinary t1 !! "EventRegistrationToken"%string = None \/
     ordinary t1 !! "EventRegistrationToken"%string =
       Some (Typedef (Tstruct "EventRegistrationToken"))) /\
    t' = mk_tu (macros t1)
           (<["EventRegistrationToken"%string :=
                Typedef (Tstruct "EventRegistrationToken")]> (ordinary t1))
           (<["EventRegistrationToken"%string :=
                [("value"%string, ty)]]> (tags t1)).
Proof.
  intros Hndef. unfold EventToken_h_on, ifndef. rewrite decide_False by done.
  unfold EventToken_h_declarations_on.
  destruct (stdint (define "_EVENTTOKEN_H_" t)) as [t1|] eqn:Hstd;
    cbn [mbind result_bind]; [|done].
  unfold typedef_struct, define_struct.
  destruct (tags t1 !! "EventRegistrationToken"%string) eqn:Htag;
    cbn [mbind result_bind]; [done |].
  unfold EventRegistrationToken_members. cbn [resolve_members resolve].
  destruct (ordinary t1 !! "int64_t"%string) as [[ty| |ty]|] eqn:Hint;
    cbn [mbind result_bind]; try done.
  intros (Hm & Htags & Hord & Hold)%typedef_Ok.
  cbn in Hm, Htags, Hord, Hold.
  exists t1, ty.
  split; [reflexivity |]. split; [exact Hint |]. split; [exact Htag |].
  split; [exact Hold |].
  destruct t' as [m' o' g']; cbn in *. now rewrite Hm, Htags, Hord.
Qed.

(** The struct already has a body where line 9 is read: a redefinition. *)
Lemma EventToken_h_on_struct_defined (stdint : tu -> result tu)
    (t t1 : tu) (ms : members) :
  "_EVENTTOKEN_H_"%string ∉ macros t ->
  stdint (define "_EVENTTOKEN_H_" t) = Ok t1 ->
  tags t1 !! "EventRegistrationToken"%string = Some ms ->
  EventToken_h_on stdint t = Err (Redefinition "EventRegistrationToken").
Proof.
  intros Hndef Hstd Htag. unfold EventToken_h_on, ifndef.
  rewrite decide_False by done. unfold EventToken_h_declarations_on.
  rewrite Hstd; cbn [mbind result_bind].
  unfold typedef_struct, define_struct. now rewrite Htag.
Qed.

(** The guard macro already defined: the header contributes nothing. *)
Lemma EventToken_h_skipped (t : tu) :
  "_EVENTTOKEN_H_"%string ∈ macros t -> EventToken_h t = Ok t.
Proof.
  intros Hdef. unfold EventToken_h, EventToken_h_on, ifndef.
  now rewrite decide_True.
Qed.

Lemma EventToken_h_Ok (t t' : tu) :
  "_EVENTTOKEN_H_"%string ∉ macros t ->
  EventToken_h t = Ok t' ->
  exists t1,
    stdint_h (define "_EVENTTOKEN_H_" t) = Ok t1 /\
    tags t !! "EventRegistrationToken"%string = None /\
    (ordinary t1 !! "EventRegistrationToken"%string = None \/
     ordinary t1 !! "EventRegistrationToken"%string =
       Some (Typedef (Tstruct "EventRegistrationToken"))) /\
    t' = mk_tu ({[ "_EVENTTOKEN_H_"%string ]} ∪ macros t)
           (<["EventRegistrationToken"%string :=
                Typedef (Tstruct "EventRegistrationToken")]> (ordinary t1))
           (<["EventRegistrationToken"%string :=
                EventRegistrationToken_body]> (tags t)).
Proof.
  intros Hndef. unfold EventToken_h, EventToken_h_on, ifndef.
  rewrite decide_False by done.
  intros (t1 & Hstd & Htag & Hold & ->)%EventToken_h_declarations_Ok. eauto.
Qed.

Lemma EventToken_h_defines_guard (t t' : tu) :
  EventToken_h t = Ok t' -> "_EVENTTOKEN_H_"%string ∈ macros t'.
Proof.
  destruct (decide ("_EVENTTOKEN_H_"%string ∈ macros t)) as [Hdef|Hndef].
  - rewrite EventToken_h_skipped by done. now intros [= <-].
  - intros (t1 & _ & _ & _ & ->)%EventToken_h_Ok; [|done]. cbn. set_solver.
Qed.

Lemma stdint_names_not_the_token (x : string) (ty : ctype) :
  (x, ty) ∈ stdint_exact_width -> x ≠ "EventRegistrationToken"%string.
Proof.
  unfold stdint_exact_width. rewrite !elem_of_cons, elem_of_nil.
  intros H; repeat destruct H as [H|H]; try done; now inversion H.
Qed.

(** Once the header has been included, [<stdint.h>] has nothing to add. *)
Lemma stdint_h_after_EventToken_h (t t' : tu) :
  "_EVENTTOKEN_H_"%string ∉ macros t ->
  EventToken_h t = Ok t' -> stdint_h t' = Ok t'.
Proof.
  intros Hndef (t1 & Hstd & _ & _ & ->)%EventToken_h_Ok; [|done].
  apply typedefs_Ok in Hstd as (_ & _ & _ & _ & Hall).
  apply typedefs_present. intros x ty Hin. cbn.
  rewrite lookup_insert_ne by (symmetry; eapply stdint_names_not_the_token, Hin).
  now apply Hall.
Qed.

End TranslationUnit.

(** ** Layout of a struct of integer members

    The rule every C ABI follows: members are placed in declaration order,
    each at the next multiple of its alignment; the size of the struct is the
    end of the last member rounded up to the greatest member alignment. A
    target is described by the greatest alignment it gives a scalar, a power
    of two: eight bytes or more on MinGW, four on the System V i386 ABI.
    Where a [#pragma pack(n)] is in effect, a member is aligned to [n] at
    most; the alignment of the scalar type itself stays what it is. *)

Module Layout.
Import TranslationUnit.

Definition CHAR_BIT : Z := 8.

Record abi : Type := mk_abi { max_align_log2 : nat }.

Definition max_align (a : abi) : Z := 2 ^ Z.of_nat (max_align_log2 a).

Definition sizeof_scalar (ty : ctype) : option Z :=
  match ty with
  | Tint bits _ => Some (bits / CHAR_BIT)
  | _ => None
  end.

Definition alignof_scalar (a : abi) (ty : ctype) : option Z :=
  sz ← sizeof_scalar ty; Some (Z.min sz (max_align a)).

(** The alignment of a member under the packing in effect, if any:
    [Some k] stands for [#pragma pack(2^k)]. *)
Definition member_alignment (a : abi) (pk : option nat) (ty : ctype) : option Z :=
  al ← alignof_scalar a ty;
  Some (match pk with
        | Some k => Z.min al (2 ^ Z.of_nat k)
        | None => al
        end).

Definition align_up (n al : Z) : Z := (n + al - 1) / al * al.

Record field : Type := mk_field {
  field_name : string;
  field_type : ctype;
  field_offset : Z
}.

Record layout : Type := mk_layout {
  layout_size : Z;
  layout_alignment : Z;
  layout_fields : list field
}.

(** [place a pk ofs al ms]: lay out [ms] from offset [ofs] on, [al] being
    the greatest alignment met so far; gives the fields, the end offset and
    the greatest alignment. *)
Fixpoint place (a : abi) (pk : option nat) (ofs al : Z) (ms : members)
    : option (list field * Z * Z) :=
  match ms with
  | [] => Some ([], ofs, al)
  | (name, ty) :: ms' =>
      sz ← sizeof_scalar ty;
      mal ← member_alignment a pk ty;
      let o := align_up ofs mal in
      r ← place a pk (o + sz) (Z.max al mal) ms';
      Some (mk_field name ty o :: r.1.1, r.1.2, r.2)
  end.

Definition struct_layout (a : abi) (pk : option nat) (ms : members)
    : option layout :=
  r ← place a pk 0 1 ms;
  Some (mk_layout (align_up r.1.2 r.2) r.2 r.1.1).

(** The layout of [struct tag] in a translation unit compiled for [a], the
    struct being declared under the packing [pk]. *)
Definition layout_of (a : abi) (pk : option nat) (t : tu) (tag : string)
    : option layout :=
  ms ← tags t !! tag; struct_layout a pk ms.

Lemma pow2_cases (k : nat) :
  2 ^ Z.of_nat k = 1 \/ 2 ^ Z.of_nat k = 2 \/ 2 ^ Z.of_nat k = 4 \/
  8 <= 2 ^ Z.of_nat k.
Proof.
  destruct k as [|[|[|k]]]; auto.
  do 3 right. rewrite !Nat2Z.inj_succ, !Z.pow_succ_r by lia.
  assert (0 < 2 ^ Z.of_nat k) by (apply Z.pow_pos_nonneg; lia). lia.
Qed.

Lemma max_align_cases (a : abi) :
  max_align a = 1 \/ max_align a = 2 \/ max_align a = 4 \/ 8 <= max_align a.
Proof. apply pow2_cases. Qed.

Lemma align_up_0 (al : Z) : 0 < al -> align_up 0 al = 0.
Proof.
  intros Hal. unfold align_up. rewrite Z.div_small by lia. reflexivity.
Qed.

(** The alignment of an [int64_t] member: 1, 2, 4 or 8, on every target and
    under every packing. *)
Lemma member_alignment_int64_t (a : abi) (pk : option nat) :
  exists al,
    member_alignment a pk (Tint 64 Signed) = Some al /\
    (al = 1 \/ al = 2 \/ al = 4 \/ al = 8).
Proof.
  unfold member_alignment, alignof_scalar, sizeof_scalar.
  change (64 / CHAR_BIT) with 8. cbn [mbind option_bind].
  eexists. split; [reflexivity |].
  pose proof (max_align_cases a) as Ha.
  destruct pk as [k|]; [pose proof (pow2_cases k) as Hk |]; lia.
Qed.

(** One [int64_t] member on any target, under any packing: the member is at
    offset 0 and the struct is eight bytes, without padding. *)
Lemma struct_layout_one_int64_t (a : abi) (pk : option nat) (name : string) :
  exists al,
    member_alignment a pk (Tint 64 Signed) = Some al /\
    (al = 1 \/ al = 2 \/ al = 4 \/ al = 8) /\
    struct_layout a pk [(name, Tint 64 Signed)] =
    Some (mk_layout 8 al [mk_field name (Tint 64 Signed) 0]).
Proof.
  destruct (member_alignment_int64_t a pk) as (al & Hal & Hcases).
  exists al. split; [exact Hal |]. split; [exact Hcases |].
  unfold struct_layout. cbn [place sizeof_scalar mbind option_bind].
  rewrite Hal. change (64 / CHAR_BIT) with 8. cbn [mbind option_bind fst snd].
  rewrite align_up_0 by lia.
  replace (Z.max 1 al) with al by lia.
  replace (align_up (0 + 8) al) with 8; [reflexivity |].
  destruct Hcases as [->|[->|[->| ->]]]; reflexivity.
Qed.

End Layout.

(** ** Tokens in memory *)

Module Memory.

(** [sizeof(EventRegistrationToken)], in bytes. *)
Definition sizeof_token : nat := 8.

(** The object representation of a token: its one member at offset 0,
    nothing before, between or after. *)
Definition token_bytes (t : EventRegistrationToken) : list byte :=
  Bytes.le_encode sizeof_token (Int64.unsigned (value t)).

(** Every bit pattern of the right length is a token. *)
Definition token_of_bytes (bs : list byte) : option EventRegistrationToken :=
  if decide (length bs = sizeof_token)
  then Some {| value := Int64.of_Z (Bytes.le_decode bs) |}
  else None.

(** Memory: the bytes that are live, by address. *)
Fixpoint store_bytes (a : Z) (bs : list byte) (m : gmap Z byte) : gmap Z byte :=
  match bs with
  | [] => m
  | b :: bs' => <[a := b]> (store_bytes (a + 1) bs' m)
  end.

Fixpoint load_bytes (a : Z) (n : nat) (m : gmap Z byte) : option (list byte) :=
  match n with
  | O => Some []
  | S n' => b ← m !! a; bs ← load_bytes (a + 1) n' m; Some (b :: bs)
  end.

Fixpoint free_bytes (a : Z) (n : nat) (m : gmap Z byte) : gmap Z byte :=
  match n with
  | O => m
  | S n' => delete a (free_bytes (a + 1) n' m)
  end.

(** [EventRegistrationToken x = t;] with [x] at address [a]. *)
Definition store_token (a : Z) (t : EventRegistrationToken)
    (m : gmap Z byte) : gmap Z byte :=
  store_bytes a (token_bytes t) m.

(** Reading the token at [a]; [None] when some of its bytes are not live. *)
Definition load_token (a : Z) (m : gmap Z byte) : option EventRegistrationToken :=
  bs ← load_bytes a sizeof_token m; token_of_bytes bs.

(** [x.value] for the token [x] at address [a]. *)
Definition load_value (a : Z) (m : gmap Z byte) : option int64_t :=
  t ← load_token a m; Some (value t).

(** [*dst = *src;] *)
Definition copy_token (dst src : Z) (m : gmap Z byte) : option (gmap Z byte) :=
  t ← load_token src m; Some (store_token dst t m).

(** The end of the lifetime of the token at [a]. *)
Definition discard_token (a : Z) (m : gmap Z byte) : gmap Z byte :=
  free_bytes a sizeof_token m.

Lemma length_token_bytes (t : EventRegistrationToken) :
  length (token_bytes t) = sizeof_token.
Proof. apply Bytes.length_le_encode. Qed.

Lemma token_of_bytes_token_bytes (t : EventRegistrationToken) :
  token_of_bytes (token_bytes t) = Some t.
Proof.
  unfold token_of_bytes. rewrite length_token_bytes.
  destruct (decide (sizeof_token = sizeof_token)) as [_|Hne]; [|done].
  unfold token_bytes. rewrite Bytes.le_decode_encode.
  change (256 ^ Z.of_nat sizeof_token) with Int64.modulus.
  rewrite Z.mod_small by apply Int64.unsigned_range.
  rewrite Int64.of_Z_unsigned. now destruct t.
Qed.

Lemma token_bytes_token_of_bytes (bs : list byte) (t : EventRegistrationToken) :
  token_of_bytes bs = Some t -> token_bytes t = bs.
Proof.
  unfold token_of_bytes. destruct (decide (length bs = sizeof_token)) as [Hlen|]; [|done].
  intros [= <-]. unfold token_bytes; cbn [value].
  pose proof (Bytes.le_decode_range bs) as Hr. rewrite Hlen in Hr.
  change (256 ^ Z.of_nat sizeof_token) with Int64.modulus in Hr.
  rewrite Int64.unsigned_of_Z by exact Hr.
  rewrite <- Hlen. apply Bytes.le_encode_decode.
Qed.

Lemma token_of_bytes_is_Some (bs : list byte) :
  length bs = sizeof_token -> is_Some (token_of_bytes bs).
Proof.
  intros Hlen. unfold token_of_bytes.
  destruct (decide (length bs = sizeof_token)); [eauto | done].
Qed.

Lemma length_load_bytes (a : Z) (n : nat) (m : gmap Z byte) (bs : list byte) :
  load_bytes a n m = Some bs -> length bs = n.
Proof.
  revert a bs; induction n as [|n IH]; intros a bs; simpl.
  - now intros [= <-].
  - destruct (m !! a) as [b|]; [simpl | done].
    destruct (load_bytes (a + 1) n m) as [bs'|] eqn:Hbs; [simpl | done].
    intros [= <-]. simpl. f_equal. eauto.
Qed.

(** Loading reads the bytes of its range and no other. *)
Lemma load_bytes_ext (a : Z) (n : nat) (m1 m2 : gmap Z byte) :
  (forall p, a <= p < a + Z.of_nat n -> m1 !! p = m2 !! p) ->
  load_bytes a n m1 = load_bytes a n m2.
Proof.
  revert a; induction n as [|n IH]; intros a Hagree; [reflexivity |].
  cbn [load_bytes]. rewrite (Hagree a) by lia.
  rewrite (IH (a + 1)); [reflexivity |].
  intros p Hp. apply Hagree. lia.
Qed.

Lemma load_bytes_is_Some (a : Z) (n : nat) (m : gmap Z byte) :
  (forall p, a <= p < a + Z.of_nat n -> is_Some (m !! p)) ->
  is_Some (load_bytes a n m).
Proof.
  revert a; induction n as [|n IH]; intros a Hlive; [simpl; eauto |].
  cbn [load_bytes].
  destruct (Hlive a) as [b ->]; [lia |].
  destruct (IH (a + 1)) as [bs ->]; [intros p Hp; apply Hlive; lia |].
  simpl. eauto.
Qed.

(** Storing writes the bytes of its range and no other. *)
Lemma store_bytes_lookup_outside (a : Z) (bs : list byte) (m : gmap Z byte) (p : Z) :
  p < a \/ a + Z.of_nat (length bs) <= p ->
  store_bytes a bs m !! p = m !! p.
Proof.
  revert a; induction bs as [|b bs IH]; intros a Hout; [reflexivity |].
  cbn [store_bytes length] in *.
  rewrite lookup_insert_ne by lia. apply IH. lia.
Qed.

Lemma load_bytes_store_bytes (a : Z) (bs : list byte) (m : gmap Z byte) :
  load_bytes a (length bs) (store_bytes a bs m) = Some bs.
Proof.
  revert a; induction bs as [|b bs IH]; intros a; [reflexivity |].
  cbn [store_bytes length load_bytes].
  rewrite lookup_insert_eq; simpl.
  rewrite (load_bytes_ext _ _ _ (store_bytes (a + 1) bs m)).
  - now rewrite IH.
  - intros p Hp. apply lookup_insert_ne. lia.
Qed.

Lemma free_bytes_lookup_outside (a : Z) (n : nat) (m : gmap Z byte) (p : Z) :
  p < a \/ a + Z.of_nat n <= p ->
  free_bytes a n m !! p = m !! p.
Proof.
  revert a; induction n as [|n IH]; intros a Hout; [reflexivity |].
  cbn [free_bytes]. rewrite lookup_delete_ne by lia. apply IH. lia.
Qed.

Lemma load_token_store_token (a : Z) (t : EventRegistrationToken) (m : gmap Z byte) :
  load_token a (store_token a t m) = Some t.
Proof.
  unfold load_token, store_token.
  pose proof (load_bytes_store_bytes a (token_bytes t) m) as Hload.
  rewrite length_token_bytes in Hload. rewrite Hload; simpl.
  apply token_of_bytes_token_bytes.
Qed.

(** A token elsewhere is not touched by a store. *)
Lemma load_token_store_token_disjoint (a c : Z) (t : EventRegistrationToken)
    (m : gmap Z byte) :
  c + Z.of_nat sizeof_token <= a \/ a + Z.of_nat sizeof_token <= c ->
  load_token c (store_token a t m) = load_token c m.
Proof.
  intros Hdisj. unfold load_token, store_token.
  rewrite (load_bytes_ext c sizeof_token _ m); [reflexivity |].
  intros p Hp. apply store_bytes_lookup_outside.
  rewrite length_token_bytes. lia.
Qed.

Lemma load_token_discard_token_disjoint (a c : Z) (m : gmap Z byte) :
  c + Z.of_nat sizeof_token <= a \/ a + Z.of_nat sizeof_token <= c ->
  load_token c (discard_token a m) = load_token c m.
Proof.
  intros Hdisj. unfold load_token, discard_token.
  rewrite (load_bytes_ext c sizeof_token _ m); [reflexivity |].
  intros p Hp. apply free_bytes_lookup_outside. lia.
Qed.

End Memory.

(** * The properties of the header *)

Import TranslationUnit Layout Memory.

(** Membership of a macro in a concrete unit, by evaluation. *)
Ltac by_evaluation := apply (bool_decide_unpack _); vm_compute; exact I.

(** ** The declared type *)

(** C1. On any platform whose [<stdint.h>] makes [int64_t] the signed 64-bit
    integer type, in every translation unit in which the header takes
    effect and its declaration reads as written, on every target and under
    every packing, [struct EventRegistrationToken] has exactly one member,
    [value], of the signed 64-bit integer type; it is at offset 0 and the
    struct occupies 8 bytes, the size of a lone [int64_t]; the object
    representation of a token is 8 bytes long and is that of its [value]. *)
Theorem EventRegistrationToken_one_int64_member_8_bytes
    (stdint : tu -> result tu) (a : abi) (pk : option nat)
    (t t1 t' : tu) (tok : EventRegistrationToken) :
  "_EVENTTOKEN_H_"%string ∉ macros t ->
  stdint (define "_EVENTTOKEN_H_" t) = Ok t1 ->
  reads_as_written t1 ->
  ordinary t1 !! "int64_t"%string = Some (Typedef (Tint 64 Signed)) ->
  EventToken_h_on stdint t = Ok t' ->
  tags t' !! "EventRegistrationToken"%string
    = Some [("value"%string, Tint 64 Signed)] /\
  ordinary t' !! "EventRegistrationToken"%string
    = Some (Typedef (Tstruct "EventRegistrationToken")) /\
  (exists l,
     layout_of a pk t' "EventRegistrationToken" = Some l /\
     layout_size l = 8 /\
     layout_fields l = [mk_field "value" (Tint 64 Signed) 0] /\
     Some (layout_size l) = sizeof_scalar (Tint 64 Signed)) /\
  Z.of_nat (length (token_bytes tok)) = 8 /\
  token_bytes tok = Bytes.le_encode 8 (Int64.unsigned (value tok)).
Proof.
  intros Hndef Hstd _ Hint (u & ty & Hstd' & Hint' & _ & _ & ->)%EventToken_h_on_Ok;
    [|done].
  rewrite Hstd in Hstd'. injection Hstd' as <-.
  rewrite Hint in Hint'. injection Hint' as <-.
  cbn [tags ordinary]. rewrite !lookup_insert_eq.
  split; [reflexivity |]. split; [reflexivity |]. split; [| split].
  - unfold layout_of; cbn [tags]. rewrite lookup_insert_eq; cbn [mbind option_bind].
    destruct (struct_layout_one_int64_t a pk "value") as (al & _ & _ & ->).
    eexists. repeat split.
  - now rewrite length_token_bytes.
  - reflexivity.
Qed.

Lemma EventRegistrationToken_one_int64_member_8_bytes_witness :
  exists t',
    EventToken_h empty_tu = Ok t' /\
    tags t' !! "EventRegistrationToken"%string
      = Some [("value"%string, Tint 64 Signed)] /\
    (exists l,
       layout_of (mk_abi 3) None t' "EventRegistrationToken" = Some l /\
       layout_size l = 8).
Proof.
  destruct (stdint_h (define "_EVENTTOKEN_H_" empty_tu)) as [t1|e] eqn:Hstd;
    [|vm_compute in Hstd; discriminate].
  destruct (EventToken_h empty_tu) as [t'|e] eqn:Hinc; [|vm_compute in Hinc; discriminate].
  exists t'. split; [reflexivity |].
  destruct (EventRegistrationToken_one_int64_member_8_bytes
              stdint_h (mk_abi 3) None empty_tu t1 t' {| value := Int64.of_Z 42 |})
    as (Htag & _ & (l & Hl & Hsize & _) & _).
  - by_evaluation.
  - exact Hstd.
  - vm_compute in Hstd. injection Hstd as <-. by_evaluation.
  - vm_compute in Hstd. injection Hstd as <-. reflexivity.
  - exact Hinc.
  - split; [exact Htag |]. exists l. split; [exact Hl | exact Hsize].
Defined.

(** C2. Any two translation units in which the header takes effect and its
    declaration reads as written, on any two platforms whose [<stdint.h>]
    makes [int64_t] the signed 64-bit integer type, compiled for any two
    targets under any two packings, give the struct the same layout: 8
    bytes, and the one member [value] of the signed 64-bit integer type at
    offset 0. *)
Theorem EventRegistrationToken_layout_same_in_all_units
    (stdint1 stdint2 : tu -> result tu) (a1 a2 : abi) (pk1 pk2 : option nat)
    (t1 u1 t1' t2 u2 t2' : tu) :
  "_EVENTTOKEN_H_"%string ∉ macros t1 ->
  "_EVENTTOKEN_H_"%string ∉ macros t2 ->
  stdint1 (define "_EVENTTOKEN_H_" t1) = Ok u1 ->
  stdint2 (define "_EVENTTOKEN_H_" t2) = Ok u2 ->
  reads_as_written u1 ->
  reads_as_written u2 ->
  ordinary u1 !! "int64_t"%string = Some (Typedef (Tint 64 Signed)) ->
  ordinary u2 !! "int64_t"%string = Some (Typedef (Tint 64 Signed)) ->
  EventToken_h_on stdint1 t1 = Ok t1' ->
  EventToken_h_on stdint2 t2 = Ok t2' ->
  tags t1' !! "EventRegistrationToken"%string
    = tags t2' !! "EventRegistrationToken"%string /\
  exists l1 l2,
    layout_of a1 pk1 t1' "EventRegistrationToken" = Some l1 /\
    layout_of a2 pk2 t2' "EventRegistrationToken" = Some l2 /\
    layout_size l1 = layout_size l2 /\
    layout_fields l1 = layout_fields l2 /\
    layout_size l1 = 8 /\
    layout_fields l1 = [mk_field "value" (Tint 64 Signed) 0].
Proof.
  intros Hn1 Hn2 Hs1 Hs2 _ _ Hi1 Hi2
    (v1 & ty1 & Hs1' & Hi1' & _ & _ & ->)%EventToken_h_on_Ok
    (v2 & ty2 & Hs2' & Hi2' & _ & _ & ->)%EventToken_h_on_Ok; [|done..].
  rewrite Hs1 in Hs1'. injection Hs1' as <-.
  rewrite Hs2 in Hs2'. injection Hs2' as <-.
  rewrite Hi1 in Hi1'. injection Hi1' as <-.
  rewrite Hi2 in Hi2'. injection Hi2' as <-.
  unfold layout_of; cbn [tags]. rewrite !lookup_insert_eq; cbn [mbind option_bind].
  split; [reflexivity |].
  destruct (struct_layout_one_int64_t a1 pk1 "value") as (al1 & _ & _ & ->).
  destruct (struct_layout_one_int64_t a2 pk2 "value") as (al2 & _ & _ & ->).
  do 2 eexists. repeat split; reflexivity.
Qed.

Lemma EventRegistrationToken_layout_same_in_all_units_witness :
  exists t1' t2',
    EventToken_h empty_tu = Ok t1' /\
    EventToken_h (define "NDEBUG" empty_tu) = Ok t2' /\
    exists l1 l2,
      layout_of (mk_abi 3) None t1' "EventRegistrationToken" = Some l1 /\
      layout_of (mk_abi 2) (Some 0%nat) t2' "EventRegistrationToken" = Some l2 /\
      layout_size l1 = layout_size l2 /\
      layout_fields l1 = layout_fields l2.
Proof.
  destruct (stdint_h (define "_EVENTTOKEN_H_" empty_tu)) as [u1|e] eqn:Hs1;
    [|vm_compute in Hs1; discriminate].
  destruct (stdint_h (define "_EVENTTOKEN_H_" (define "NDEBUG" empty_tu)))
    as [u2|e] eqn:Hs2; [|vm_compute in Hs2; discriminate].
  destruct (EventToken_h empty_tu) as [t1'|e] eqn:H1; [|vm_compute in H1; discriminate].
  destruct (EventToken_h (define "NDEBUG" empty_tu)) as [t2'|e] eqn:H2;
    [|vm_compute in H2; discriminate].
  exists t1', t2'. do 2 (split; [reflexivity |]).
  destruct (EventRegistrationToken_layout_same_in_all_units
              stdint_h stdint_h (mk_abi 3) (mk_abi 2) None (Some 0%nat)
              empty_tu u1 t1' (define "NDEBUG" empty_tu) u2 t2')
    as (_ & l1 & l2 & Hl1 & Hl2 & Hsize & Hfields & _).
  - by_evaluation.
  - by_evaluation.
  - exact Hs1.
  - exact Hs2.
  - vm_compute in Hs1. injection Hs1 as <-. by_evaluation.
  - vm_compute in Hs2. injection Hs2 as <-. by_evaluation.
  - vm_compute in Hs1. injection Hs1 as <-. reflexivity.
  - vm_compute in Hs2. injection Hs2 as <-. reflexivity.
  - exact H1.
  - exact H2.
  - exists l1, l2. auto.
Defined.

(** ** What the header declares *)

(** C3. Whatever the platform's [<stdint.h>] brings in, the header's own
    lines add exactly one entity to the unit that line 7 leaves: the struct
    [EventRegistrationToken], whose tag had no body and gets the body of one
    member [value] of the type [int64_t] names, and whose name becomes a
    typedef for it. No other tag and no other identifier changes, no macro
    is defined by lines 9 to 11 (the guard macro of line 5 is in the unit
    that [<stdint.h>] is entered with), and no function and no object is
    declared. *)
Theorem EventToken_h_declares_only_the_struct
    (stdint : tu -> result tu) (t t1 t' : tu) :
  "_EVENTTOKEN_H_"%string ∉ macros t ->
  stdint (define "_EVENTTOKEN_H_" t) = Ok t1 ->
  reads_as_written t1 ->
  EventToken_h_on stdint t = Ok t' ->
  exists ty,
    ordinary t1 !! "int64_t"%string = Some (Typedef ty) /\
    tags t1 !! "EventRegistrationToken"%string = None /\
    tags t' = <["EventRegistrationToken"%string := [("value"%string, ty)]]> (tags t1) /\
    ordinary t' =
      <["EventRegistrationToken"%string :=
          Typedef (Tstruct "EventRegistrationToken")]> (ordinary t1) /\
    macros t' = macros t1 /\
    (forall x e, ordinary t1 !! x = Some e -> ordinary t' !! x = Some e) /\
    (forall x, ordinary t' !! x = Some Function -> ordinary t1 !! x = Some Function) /\
    (forall x oty, ordinary t' !! x = Some (Object oty) ->
       ordinary t1 !! x = Some (Object oty)).
Proof.
  intros Hndef Hstd _ (u & ty & Hstd' & Hint & Htag & Hold & ->)%EventToken_h_on_Ok;
    [|done].
  rewrite Hstd in Hstd'. injection Hstd' as <-.
  exists ty. cbn [tags ordinary macros].
  assert (Hkeep : forall x e, ordinary t1 !! x = Some e ->
            <["EventRegistrationToken"%string :=
                Typedef (Tstruct "EventRegistrationToken")]> (ordinary t1) !! x
            = Some e).
  { intros x e Hx.
    destruct (decide ("EventRegistrationToken"%string = x)) as [<-|Hne].
    - rewrite lookup_insert_eq. destruct Hold; congruence.
    - now rewrite lookup_insert_ne. }
  do 5 (split; [done |]). split; [exact Hkeep |]. split.
  - intros x. destruct (decide ("EventRegistrationToken"%string = x)) as [<-|Hne].
    + now rewrite lookup_insert_eq.
    + now rewrite lookup_insert_ne.
  - intros x oty. destruct (decide ("EventRegistrationToken"%string = x)) as [<-|Hne].
    + now rewrite lookup_insert_eq.
    + now rewrite lookup_insert_ne.
Qed.

Lemma EventToken_h_declares_only_the_struct_witness :
  exists t',
    EventToken_h empty_tu = Ok t' /\
    tags t' = {[ "EventRegistrationToken"%string := EventRegistrationToken_body ]} /\
    (forall x, ordinary t' !! x ≠ Some Function) /\
    (forall x ty, ordinary t' !! x ≠ Some (Object ty)).
Proof.
  destruct (stdint_h (define "_EVENTTOKEN_H_" empty_tu)) as [t1|e] eqn:Hstd;
    [|vm_compute in Hstd; discriminate].
  destruct (EventToken_h empty_tu) as [t'|e] eqn:Hinc; [|vm_compute in Hinc; discriminate].
  exists t'. split; [reflexivity |].
  destruct (EventToken_h_declares_only_the_struct stdint_h empty_tu t1 t')
    as (ty & Hint & _ & Htags & _ & _ & _ & Hfun & Hobj).
  - by_evaluation.
  - exact Hstd.
  - vm_compute in Hstd. injection Hstd as <-. by_evaluation.
  - exact Hinc.
  - pose proof (stdint_h_int64_t _ _ Hstd) as Hint'.
    rewrite Hint in Hint'. injection Hint' as ->.
    pose proof (typedefs_Ok _ _ _ Hstd) as (_ & Hempty & _ & Hnew & _).
    cbn [define tags ordinary] in Hempty, Hnew.
    split; [| split].
    + rewrite Htags, Hempty. apply insert_empty.
    + intros x Hx. apply Hfun in Hx.
      destruct (Hnew x (lookup_empty x)) as [H|(ty' & _ & H)]; congruence.
    + intros x oty Hx. apply Hobj in Hx.
      destruct (Hnew x (lookup_empty x)) as [H|(ty' & _ & H)]; congruence.
Defined.

(** A unit in which another header, under a guard macro of its own, has
    declared the struct: what the platform's own header leaves. *)
Definition after_platform_header : tu :=
  mk_tu {[ "__eventtoken_h__"%string ]}
    {[ "EventRegistrationToken"%string :=
         (Typedef (Tstruct "EventRegistrationToken")) ]}
    {[ "EventRegistrationToken"%string := EventRegistrationToken_body ]}.

(** The guard does not cover every redefinition: in that unit the guard
    macro is not defined and the text reads as written, yet the include,
    once or twice, stops with a redefinition of the struct. *)
Lemma EventToken_h_guard_leaves_a_redefinition :
  ("_EVENTTOKEN_H_"%string ∉ macros after_platform_header) /\
  reads_as_written after_platform_header /\
  EventToken_h after_platform_header
    = Err (Redefinition "EventRegistrationToken") /\
  include_times 2 after_platform_header
    = Err (Redefinition "EventRegistrationToken").
Proof.
  split; [by_evaluation |]. split; [by_evaluation |].
  split; vm_compute; reflexivity.
Qed.

(** C7, as the code has it. Once the header has been included with
    success, including it again, any number of times, succeeds and changes
    nothing: the guard macro is defined, so the struct is not declared a
    second time, where the same text without the guard would stop with a
    redefinition. The guard covers nothing else: in a unit where the struct
    already has a body and the guard macro is not defined, no number of
    includes succeeds. *)
Theorem EventToken_h_guarded_against_reinclusion (t t' : tu) :
  EventToken_h t = Ok t' ->
  "_EVENTTOKEN_H_"%string ∈ macros t' /\
  EventToken_h t' = Ok t' /\
  (forall n, include_times n t' = Ok t') /\
  ("_EVENTTOKEN_H_"%string ∉ macros t -> reads_as_written t ->
   EventToken_h_unguarded t' = Err (Redefinition "EventRegistrationToken")) /\
  (forall (u : tu) (ms : members) (n : nat),
     "_EVENTTOKEN_H_"%string ∉ macros u ->
     reads_as_written u ->
     tags u !! "EventRegistrationToken"%string = Some ms ->
     exists e, include_times (S n) u = Err e).
Proof.
  intros Hinc.
  pose proof (EventToken_h_defines_guard _ _ Hinc) as Hguard.
  pose proof (EventToken_h_skipped _ Hguard) as Hagain.
  split; [exact Hguard |]. split; [exact Hagain |]. split; [| split].
  - intros n; induction n as [|n IH]; [reflexivity |].
    cbn [include_times]. rewrite Hagain. exact IH.
  - intros Hndef _.
    unfold EventToken_h_unguarded, EventToken_h_declarations,
      EventToken_h_declarations_on.
    rewrite (stdint_h_after_EventToken_h _ _ Hndef Hinc). cbn [mbind result_bind].
    apply EventToken_h_Ok in Hinc as (t1 & _ & _ & _ & ->); [|done].
    unfold typedef_struct, define_struct; cbn [tags].
    rewrite lookup_insert_eq. reflexivity.
  - intros u ms n Hndef _ Htag. cbn [include_times].
    destruct (EventToken_h u) as [u'|e] eqn:Hu; cbn [mbind result_bind]; [| eauto].
    apply EventToken_h_Ok in Hu as (v & _ & Hfree & _); [| done]. congruence.
Qed.

Lemma EventToken_h_guarded_against_reinclusion_witness :
  exists t',
    include_times 1 empty_tu = Ok t' /\
    include_times 2 empty_tu = Ok t' /\
    include_times 3 empty_tu = Ok t' /\
    EventToken_h_unguarded t' = Err (Redefinition "EventRegistrationToken").
Proof.
  destruct (EventToken_h empty_tu) as [t'|e] eqn:Hinc; [|vm_compute in Hinc; discriminate].
  exists t'.
  destruct (EventToken_h_guarded_against_reinclusion empty_tu t' Hinc)
    as (_ & Hagain & Htimes & Hunguarded & _).
  assert (Hfirst : forall n, include_times (S n) empty_tu = Ok t').
  { intros n. cbn [include_times]. rewrite Hinc. apply Htimes. }
  split; [apply Hfirst |]. split; [apply Hfirst |]. split; [apply Hfirst |].
  apply Hunguarded; by_evaluation.
Defined.

(** ** The values of the type *)

(** C4. The only invariant of a token is the width of its storage: the
    integers that are the value of some token are exactly those from
    [-2^63] to [2^63 - 1], zero and the negative ones included, and every
    sequence of 8 bytes, and no other, is the representation of a token. *)
Theorem token_invariant_is_the_storage_width :
  (forall z : Z,
     (exists t : EventRegistrationToken, Int64.signed (value t) = z) <->
     - 2 ^ 63 <= z <= 2 ^ 63 - 1) /\
  (forall bs : list byte,
     is_Some (token_of_bytes bs) <-> length bs = 8%nat) /\
  (forall bs t, token_of_bytes bs = Some t <->
     length bs = 8%nat /\ token_bytes t = bs).
Proof.
  split; [| split].
  - intros z. split.
    + intros [t <-]. apply (Int64.signed_range (value t)).
    + intros Hz. exists {| value := Int64.of_Z z |}. cbn [value].
      now apply Int64.signed_of_Z.
  - intros bs. unfold token_of_bytes, sizeof_token.
    destruct (decide (length bs = 8%nat)) as [Hlen|Hlen].
    + split; eauto.
    + split; [intros [t Ht]; discriminate Ht | done].
  - intros bs t. split.
    + intros Hbs. split; [| now apply token_bytes_token_of_bytes].
      apply token_bytes_token_of_bytes in Hbs as <-. apply length_token_bytes.
    + intros [_ <-]. apply token_of_bytes_token_bytes.
Qed.

(** C8. Tokens and signed 64-bit integers correspond one to one: the value
    read from a token built from [n] is [n], and the token built from the
    value of [t] is [t]; the same holds through memory. *)
Theorem token_int64_round_trip :
  (forall n : int64_t, value {| value := n |} = n) /\
  (forall t : EventRegistrationToken, {| value := value t |} = t) /\
  (forall (n : int64_t) (a : Z) (m : gmap Z byte),
     load_value a (store_token a {| value := n |} m) = Some n) /\
  (forall (t : EventRegistrationToken) (a : Z) (m : gmap Z byte),
     Build_EventRegistrationToken <$> load_value a (store_token a t m) = Some t).
Proof.
  split; [| split; [| split]].
  - intros n. reflexivity.
  - intros [n]. reflexivity.
  - intros n a m. unfold load_value.
    now rewrite load_token_store_token.
  - intros [v] a m. unfold load_value.
    now rewrite load_token_store_token.
Qed.

(** C9. Two tokens are equal exactly when their values are: equal as
    [int64_t], equal as integers, and equal byte for byte in memory. A token
    holds nothing besides its value. *)
Theorem token_eq_iff_value_eq (s t : EventRegistrationToken) :
  (s = t <-> value s = value t) /\
  (s = t <-> Int64.signed (value s) = Int64.signed (value t)) /\
  (s = t <-> token_bytes s = token_bytes t).
Proof.
  destruct s as [x], t as [y]; cbn [value].
  split; [| split].
  - split; [now intros [= ->] | now intros ->].
  - split; [now intros [= ->] |].
    intros Heq. f_equal. now apply Int64.signed_inj.
  - split; [now intros [= ->] |].
    intros Heq.
    pose proof (token_of_bytes_token_bytes {| value := x |}) as Hx.
    rewrite Heq, token_of_bytes_token_bytes in Hx. now inversion Hx.
Qed.

(** ** Tokens as objects *)

(** C5. Copying the token at [src] to [dst] gives [dst] a token with the same
    value, and touches no byte outside the eight of [dst]: every other token
    in memory, the source included when it does not overlap [dst], reads as
    before. Discarding the token at [dst] likewise touches nothing outside
    its eight bytes. *)
Theorem copy_token_value_semantics
    (m : gmap Z byte) (src dst : Z) (t : EventRegistrationToken) :
  load_token src m = Some t ->
  exists m',
    copy_token dst src m = Some m' /\
    (exists t', load_token dst m' = Some t' /\ value t' = value t) /\
    (forall p, p < dst \/ dst + 8 <= p -> m' !! p = m !! p) /\
    (forall c, c + 8 <= dst \/ dst + 8 <= c -> load_token c m' = load_token c m) /\
    (src + 8 <= dst \/ dst + 8 <= src \/ src = dst -> load_token src m' = Some t) /\
    (forall p, p < dst \/ dst + 8 <= p -> discard_token dst m !! p = m !! p) /\
    (forall c, c + 8 <= dst \/ dst + 8 <= c ->
       load_token c (discard_token dst m) = load_token c m).
Proof.
  intros Hsrc. exists (store_token dst t m).
  split; [| split; [| split; [| split; [| split; [| split]]]]].
  - unfold copy_token. now rewrite Hsrc.
  - exists t. split; [apply load_token_store_token | reflexivity].
  - intros p Hp. unfold store_token. apply store_bytes_lookup_outside.
    rewrite length_token_bytes. unfold sizeof_token. lia.
  - intros c Hc. apply load_token_store_token_disjoint.
    unfold sizeof_token. lia.
  - intros [Hd|[Hd| ->]].
    + rewrite load_token_store_token_disjoint; [done | unfold sizeof_token; lia].
    + rewrite load_token_store_token_disjoint; [done | unfold sizeof_token; lia].
    + apply load_token_store_token.
  - intros p Hp. unfold discard_token. apply free_bytes_lookup_outside.
    unfold sizeof_token. lia.
  - intros c Hc. apply load_token_discard_token_disjoint.
    unfold sizeof_token. lia.
Qed.

Lemma copy_token_value_semantics_witness :
  exists m',
    copy_token 8 0 (store_token 0 {| value := Int64.of_Z (-7) |} ∅) = Some m' /\
    (exists t', load_token 8 m' = Some t' /\ Int64.signed (value t') = -7) /\
    load_token 0 m' = Some {| value := Int64.of_Z (-7) |}.
Proof.
  destruct (copy_token_value_semantics
              (store_token 0 {| value := Int64.of_Z (-7) |} ∅) 0 8
              {| value := Int64.of_Z (-7) |})
    as (m' & Hcopy & (t' & Hload & Hvalue) & _ & _ & Hsource & _).
  - apply load_token_store_token.
  - exists m'. split; [exact Hcopy |]. split.
    + exists t'. split; [exact Hload |]. rewrite Hvalue. reflexivity.
    + apply Hsource. lia.
Defined.

(** C6. No use of a token fails: a token is built from any [int64_t]; where
    the eight bytes of a token are live, reading the token, reading its
    [value] and copying it all give a result; and what was written is read
    back. *)
Theorem token_operations_cannot_fail
    (m : gmap Z byte) (a dst : Z) (n : int64_t) :
  (forall p, a <= p < a + 8 -> is_Some (m !! p)) ->
  (exists t : EventRegistrationToken, value t = n) /\
  is_Some (load_token a m) /\
  is_Some (load_value a m) /\
  is_Some (copy_token dst a m) /\
  load_value dst (store_token dst {| value := n |} m) = Some n.
Proof.
  intros Hlive.
  assert (Hload : is_Some (load_token a m)).
  { unfold load_token.
    destruct (load_bytes_is_Some a sizeof_token m) as [bs Hbs].
    - intros p Hp. apply Hlive. unfold sizeof_token in Hp. lia.
    - rewrite Hbs; cbn [mbind option_bind].
      apply token_of_bytes_is_Some. eapply length_load_bytes, Hbs. }
  destruct Hload as [t Ht].
  split; [| split; [| split; [| split]]].
  - now exists {| value := n |}.
  - eauto.
  - unfold load_value. rewrite Ht. cbn. eauto.
  - unfold copy_token. rewrite Ht. cbn. eauto.
  - unfold load_value. now rewrite load_token_store_token.
Qed.

Lemma token_operations_cannot_fail_witness :
  is_Some (load_token 16 (store_token 16 {| value := Int64.of_Z 0 |} ∅)) /\
  is_Some (copy_token 32 16 (store_token 16 {| value := Int64.of_Z 0 |} ∅)).
Proof.
  destruct (token_operations_cannot_fail
              (store_token 16 {| value := Int64.of_Z 0 |} ∅) 16 32
              (Int64.of_Z Int64.min_signed))
    as (_ & Hload & _ & Hcopy & _).
  - intros p Hp.
    assert (Hcases : p = 16 \/ p = 17 \/ p = 18 \/ p = 19 \/
                     p = 20 \/ p = 21 \/ p = 22 \/ p = 23) by lia.
    destruct Hcases as [->|[->|[->|[->|[->|[->|[->| ->]]]]]]];
      vm_compute; eauto.
  - split; [exact Hload | exact Hcopy].
Defined.

(** * Further properties of the header: when it fails, what it gives, how it
    composes *)

(** ** Auxiliary facts on sequences of typedefs *)

(** Typedefs neither read nor write the macros. *)
Lemma typedefs_define (ds : list (string * ctype)) (m : string) (t : tu) :
  typedefs ds (define m t) =
  match typedefs ds t with
  | Ok t' => Ok (define m t')
  | Err e => Err e
  end.
Proof.
  revert t; induction ds as [|[name ty] ds IH]; intros t; [reflexivity |].
  cbn [typedefs]. unfold typedef. cbn [define ordinary macros tags].
  destruct (ordinary t !! name) as [[ty'| |ty']|]; cbn [mbind result_bind]; try done.
  - case_decide; cbn [mbind result_bind]; [apply IH | done].
  - exact (IH (mk_tu (macros t) (<[name:=Typedef ty]> (ordinary t)) (tags t))).
Qed.

(** Declaring the same typedefs a second time changes nothing. *)
Lemma typedefs_idempotent (ds : list (string * ctype)) (t t' : tu) :
  typedefs ds t = Ok t' -> typedefs ds t' = Ok t'.
Proof.
  intros (_ & _ & _ & _ & Hall)%typedefs_Ok. now apply typedefs_present.
Qed.

(** ** Failures *)

(** X1. On any platform, in a unit where [struct EventRegistrationToken]
    already has a body when line 9 is read and the guard macro was not
    defined (another header, under a guard macro of its own, declared the
    struct), the include stops with a redefinition of the struct. *)
Theorem EventToken_h_fails_on_defined_struct
    (stdint : tu -> result tu) (t t1 : tu) (ms : members) :
  "_EVENTTOKEN_H_"%string ∉ macros t ->
  stdint (define "_EVENTTOKEN_H_" t) = Ok t1 ->
  reads_as_written t1 ->
  tags t1 !! "EventRegistrationToken"%string = Some ms ->
  EventToken_h_on stdint t = Err (Redefinition "EventRegistrationToken").
Proof.
  intros Hndef Hstd _ Htag. now apply (EventToken_h_on_struct_defined stdint t t1 ms).
Qed.

Lemma EventToken_h_fails_on_defined_struct_witness :
  EventToken_h
    (mk_tu {[ "__eventtoken_h__"%string ]} ∅
       {[ "EventRegistrationToken"%string := EventRegistrationToken_body ]})
  = Err (Redefinition "EventRegistrationToken").
Proof.
  destruct (stdint_h (define "_EVENTTOKEN_H_"
              (mk_tu {[ "__eventtoken_h__"%string ]} ∅
                 {[ "EventRegistrationToken"%string := EventRegistrationToken_body ]})))
    as [t1|e] eqn:Hstd; [|vm_compute in Hstd; discriminate].
  refine (EventToken_h_fails_on_defined_struct stdint_h _ t1
            EventRegistrationToken_body _ Hstd _ _).
  - by_evaluation.
  - vm_compute in Hstd. injection Hstd as <-. by_evaluation.
  - vm_compute in Hstd. injection Hstd as <-. reflexivity.
Defined.



(** ** What the includer gets *)

(** X4. On any platform, where the header takes effect and its declaration
    reads as written, the includer can use what it declares: the typedef
    name and the struct tag both denote the complete struct, and [int64_t]
    still names the type that [<stdint.h>] gave it. *)
Theorem EventToken_h_makes_the_type_usable
    (stdint : tu -> result tu) (t t1 t' : tu) :
  "_EVENTTOKEN_H_"%string ∉ macros t ->
  stdint (define "_EVENTTOKEN_H_" t) = Ok t1 ->
  reads_as_written t1 ->
  EventToken_h_on stdint t = Ok t' ->
  resolve t' (Tnamed "EventRegistrationToken") = Ok (Tstruct "EventRegistrationToken") /\
  resolve t' (Tstruct "EventRegistrationToken") = Ok (Tstruct "EventRegistrationToken") /\
  exists ty,
    resolve t1 (Tnamed "int64_t") = Ok ty /\
    resolve t' (Tnamed "int64_t") = Ok ty /\
    tags t' !! "EventRegistrationToken"%string = Some [("value"%string, ty)].
Proof.
  intros Hndef Hstd _ (u & ty & Hstd' & Hint & _ & _ & ->)%EventToken_h_on_Ok;
    [|done].
  rewrite Hstd in Hstd'. injection Hstd' as <-.
  unfold resolve; cbn [ordinary tags]. rewrite !lookup_insert_eq.
  split; [reflexivity |]. split; [reflexivity |].
  exists ty. rewrite lookup_insert_ne by done. rewrite Hint. auto.
Qed.

Lemma EventToken_h_makes_the_type_usable_witness :
  exists t',
    EventToken_h empty_tu = Ok t' /\
    resolve t' (Tnamed "EventRegistrationToken")
    = Ok (Tstruct "EventRegistrationToken") /\
    resolve t' (Tnamed "int64_t") = Ok (Tint 64 Signed).
Proof.
  destruct (stdint_h (define "_EVENTTOKEN_H_" empty_tu)) as [t1|e] eqn:Hstd;
    [|vm_compute in Hstd; discriminate].
  destruct (EventToken_h empty_tu) as [t'|e] eqn:Hinc; [|vm_compute in Hinc; discriminate].
  exists t'. split; [reflexivity |].
  destruct (EventToken_h_makes_the_type_usable stdint_h empty_tu t1 t')
    as (Halias & _ & ty & Hbefore & Hafter & _).
  - by_evaluation.
  - exact Hstd.
  - vm_compute in Hstd. injection Hstd as <-. by_evaluation.
  - exact Hinc.
  - split; [exact Halias |]. rewrite Hafter, <- Hbefore.
    unfold resolve. now rewrite (stdint_h_int64_t _ _ Hstd).
Defined.

(** X5. On any platform, where the declaration reads as written: after a
    successful include the struct has a body exactly when the guard macro
    was not defined before the include or the unit had the body already, and
    the typedef name denotes the struct exactly when the guard macro was not
    defined or the unit had that typedef already. A unit that defines
    [_EVENTTOKEN_H_] by other means gets nothing from the header. *)
Theorem EventToken_h_provides_iff (stdint : tu -> result tu) (t t' : tu) :
  (forall t1, stdint (define "_EVENTTOKEN_H_" t) = Ok t1 -> reads_as_written t1) ->
  EventToken_h_on stdint t = Ok t' ->
  (is_Some (tags t' !! "EventRegistrationToken"%string) <->
   "_EVENTTOKEN_H_"%string ∉ macros t \/
   is_Some (tags t !! "EventRegistrationToken"%string)) /\
  (resolve t' (Tnamed "EventRegistrationToken") = Ok (Tstruct "EventRegistrationToken") <->
   "_EVENTTOKEN_H_"%string ∉ macros t \/
   ordinary t !! "EventRegistrationToken"%string
   = Some (Typedef (Tstruct "EventRegistrationToken"))).
Proof.
  intros _.
  destruct (decide ("_EVENTTOKEN_H_"%string ∈ macros t)) as [Hdef|Hndef].
  - unfold EventToken_h_on, ifndef. rewrite decide_True by done.
    intros [= <-]. split.
    + split; [now right | now intros [?|?]].
    + unfold resolve. split.
      * destruct (ordinary t !! "EventRegistrationToken"%string) as [[ty| |ty]|];
          try done. intros [= ->]. now right.
      * intros [?| ->]; done.
  - intros (u & ty & _ & _ & _ & _ & ->)%EventToken_h_on_Ok; [|done].
    unfold resolve; cbn [tags ordinary]. rewrite !lookup_insert_eq.
    split; (split; [now left | intros _; eauto]).
Qed.

Lemma EventToken_h_provides_iff_witness :
  exists t',
    EventToken_h (define "_EVENTTOKEN_H_" empty_tu) = Ok t' /\
    tags t' !! "EventRegistrationToken"%string = None /\
    resolve t' (Tnamed "EventRegistrationToken")
    ≠ Ok (Tstruct "EventRegistrationToken").
Proof.
  destruct (EventToken_h (define "_EVENTTOKEN_H_" empty_tu)) as [t'|e] eqn:Hinc;
    [|vm_compute in Hinc; discriminate].
  exists t'. split; [reflexivity |].
  destruct (EventToken_h_provides_iff stdint_h
              (define "_EVENTTOKEN_H_" empty_tu) t') as [Hbody Halias].
  - intros t1 Hstd. vm_compute in Hstd. injection Hstd as <-. by_evaluation.
  - exact Hinc.
  - split.
    + destruct (tags t' !! "EventRegistrationToken"%string) as [ms|] eqn:Htag;
        [| reflexivity].
      destruct (proj1 Hbody) as [Hndef|[ms' Hms']]; [eauto | |].
      * exfalso. apply Hndef. by_evaluation.
      * vm_compute in Hms'. discriminate Hms'.
    + intros Hres. destruct (proj1 Halias Hres) as [Hndef|Hold].
      * apply Hndef. by_evaluation.
      * vm_compute in Hold. discriminate Hold.
Defined.

(** ** Alignment *)

(** X6. On any platform whose [<stdint.h>] makes [int64_t] the signed
    64-bit integer type and on every target: with no packing in effect the
    struct has exactly the alignment of [int64_t]; under [#pragma pack(n)]
    it has the smaller of that alignment and [n]. In every case the
    alignment is 1, 2, 4 or 8 and divides the size, so consecutive tokens
    need no padding. *)
Theorem EventRegistrationToken_aligned_as_int64_t
    (stdint : tu -> result tu) (a : abi) (pk : option nat) (t t1 t' : tu) :
  "_EVENTTOKEN_H_"%string ∉ macros t ->
  stdint (define "_EVENTTOKEN_H_" t) = Ok t1 ->
  reads_as_written t1 ->
  ordinary t1 !! "int64_t"%string = Some (Typedef (Tint 64 Signed)) ->
  EventToken_h_on stdint t = Ok t' ->
  exists l al,
    layout_of a pk t' "EventRegistrationToken" = Some l /\
    alignof_scalar a (Tint 64 Signed) = Some al /\
    layout_alignment l =
      match pk with
      | Some k => Z.min al (2 ^ Z.of_nat k)
      | None => al
      end /\
    (layout_alignment l = 1 \/ layout_alignment l = 2 \/
     layout_alignment l = 4 \/ layout_alignment l = 8) /\
    layout_size l mod layout_alignment l = 0.
Proof.
  intros Hndef Hstd _ Hint (u & ty & Hstd' & Hint' & _ & _ & ->)%EventToken_h_on_Ok;
    [|done].
  rewrite Hstd in Hstd'. injection Hstd' as <-.
  rewrite Hint in Hint'. injection Hint' as <-.
  unfold layout_of; cbn [tags]. rewrite lookup_insert_eq; cbn [mbind option_bind].
  destruct (struct_layout_one_int64_t a pk "value") as (al & Hal & Hcases & ->).
  exists (mk_layout 8 al [mk_field "value" (Tint 64 Signed) 0]),
    (Z.min 8 (max_align a)).
  cbn [layout_alignment layout_size].
  split; [reflexivity |]. split; [reflexivity |]. split.
  - unfold member_alignment, alignof_scalar, sizeof_scalar in Hal.
    change (64 / CHAR_BIT) with 8 in Hal. cbn [mbind option_bind] in Hal.
    now injection Hal as <-.
  - split; [exact Hcases |].
    destruct Hcases as [->|[->|[->| ->]]]; reflexivity.
Qed.

Lemma EventRegistrationToken_aligned_as_int64_t_witness :
  exists t' l1 l2,
    EventToken_h empty_tu = Ok t' /\
    layout_of (mk_abi 3) None t' "EventRegistrationToken" = Some l1 /\
    layout_alignment l1 = 8 /\
    layout_of (mk_abi 3) (Some 1%nat) t' "EventRegistrationToken" = Some l2 /\
    layout_alignment l2 = 2.
Proof.
  destruct (stdint_h (define "_EVENTTOKEN_H_" empty_tu)) as [t1|e] eqn:Hstd;
    [|vm_compute in Hstd; discriminate].
  destruct (EventToken_h empty_tu) as [t'|e] eqn:Hinc; [|vm_compute in Hinc; discriminate].
  assert (Hwritten : reads_as_written t1)
    by (vm_compute in Hstd; injection Hstd as <-; by_evaluation).
  pose proof (stdint_h_int64_t _ _ Hstd) as Hint.
  destruct (EventRegistrationToken_aligned_as_int64_t
              stdint_h (mk_abi 3) None empty_tu t1 t')
    as (l1 & al1 & Hl1 & Hal1 & Heq1 & _); [by_evaluation | done..|].
  destruct (EventRegistrationToken_aligned_as_int64_t
              stdint_h (mk_abi 3) (Some 1%nat) empty_tu t1 t')
    as (l2 & al2 & Hl2 & Hal2 & Heq2 & _); [by_evaluation | done..|].
  exists t', l1, l2. split; [reflexivity |].
  vm_compute in Hal1. injection Hal1 as <-.
  vm_compute in Hal2. injection Hal2 as <-.
  repeat split; assumption.
Defined.

(** ** The includer's own [#include <stdint.h>] *)

(** X7. The header includes [<stdint.h>] itself, so the includer's own
    include of it makes no difference, before the header or after it: the
    unit reached, or the diagnostic, is the same as with the header alone. *)
Theorem EventToken_h_commutes_with_stdint_h (t : tu) :
  "_EVENTTOKEN_H_"%string ∉ macros t ->
  (stdint_h t ≫= EventToken_h) = EventToken_h t /\
  (EventToken_h t ≫= stdint_h) = EventToken_h t.
Proof.
  intros Hndef. split.
  - assert (Hhere : EventToken_h t =
              EventToken_h_declarations (define "_EVENTTOKEN_H_" t))
      by (unfold EventToken_h, EventToken_h_on, ifndef; now rewrite decide_False).
    rewrite Hhere. unfold EventToken_h_declarations, EventToken_h_declarations_on.
    unfold stdint_h in *. rewrite typedefs_define.
    destruct (typedefs stdint_exact_width t) as [t1|e] eqn:Hstd;
      cbn [mbind result_bind]; [|reflexivity].
    pose proof (typedefs_Ok _ _ _ Hstd) as (Hm & _).
    unfold EventToken_h, EventToken_h_on, ifndef.
    rewrite decide_False by (now rewrite Hm).
    unfold EventToken_h_declarations_on, stdint_h.
    rewrite typedefs_define, (typedefs_idempotent _ _ _ Hstd). reflexivity.
  - destruct (EventToken_h t) as [t'|e] eqn:Hinc; cbn [mbind result_bind];
      [| reflexivity].
    now apply (stdint_h_after_EventToken_h t).
Qed.

Lemma EventToken_h_commutes_with_stdint_h_witness :
  (stdint_h empty_tu ≫= EventToken_h) = EventToken_h empty_tu /\
  (EventToken_h empty_tu ≫= stdint_h) = EventToken_h empty_tu.
Proof.
  apply EventToken_h_commutes_with_stdint_h. by_evaluation.
Defined.
